(** * Pet Classifier front end: the upload orchestration of [src/App.tsx]

    A shallow embedding of the state logic of the [App] component: the
    [images] state (a JavaScript array of [ImageResult] objects), the
    [processImage] pipeline, the two [setImages] updaters of
    [handleImageUpload], [removeImage] and [handleReset].

    The browser is the environment.  Its answers are inputs of the model:
    - the successive values of [Math.random().toString(36).substring(7)]
      are given by an oracle [random_id : nat → string], consumed in
      evaluation order through the counter [draws];
    - a [File] is described by what [URL.createObjectURL] and
      [FileReader.readAsDataURL] return for it;
    - the settlement of [axios.post] is an [AxiosOutcome] carried by the
      event that delivers it.

    JavaScript runs every callback to completion, so one event of the
    model is one callback of the component. *)

From stdpp Require Import base option list strings.

(** ** Data *)

(** [interface ImageResult] (App.tsx, lines 5-11). *)
Record ImageResult := mkImageResult {
  id : string;
  image : string;
  prediction : option string;
  error : option string;
  isLoading : bool
}.

(** A selected file, as seen through the two browser calls made on it. *)
Record File := mkFile {
  objectURL : string;   (* URL.createObjectURL(file) *)
  dataURL : string      (* reader.result after reader.readAsDataURL(file) *)
}.

(** [response.data]: a success flag, a label and an error message. *)
Record ResponseData := mkResponseData {
  success : bool;
  data_prediction : option string;
  data_error : option string
}.

(** [await axios.post(...)] either yields a response or throws. *)
Inductive AxiosOutcome :=
  | Fulfilled (data : ResponseData)
  | Rejected.

(** The promise returned by [processImage]: its executor has drawn an id
    and started reading the file; it resolves once, with a result. *)
Inductive Pipeline :=
  | Pending (pid : string) (file : File)
  | Resolved (result : ImageResult).

(** An invocation of [handleImageUpload] suspended at its [await]: the
    local [newImages] and the promises handed to [Promise.all]. *)
Record Upload := mkUpload {
  newImages : list ImageResult;
  promises : list Pipeline
}.

(** The component: the [images] state, the suspended handlers, and the
    number of [Math.random()] evaluations made so far. *)
Record App := mkApp {
  images : list ImageResult;
  handlers : list Upload;
  draws : nat
}.

Inductive Event :=
  | SelectFiles (files : list File)             (* onChange of the file input *)
  | Settle (b i : nat) (o : AxiosOutcome)       (* pipeline i of handler b completes *)
  | ClickRemove (k : string)                    (* the X button of an item *)
  | ClickReset.                                 (* "Clear All Images" *)

Global Instance ImageResult_eq_dec : EqDecision ImageResult.
Proof. solve_decision. Defined.

(** ** Operations *)

Definition connectivity_message : string := "Error connecting to the model server".
Definition fallback_message : string := "Failed to process image".

(** [a || b] on a possibly missing string: the empty string is falsy. *)
Definition js_or (a : option string) (b : string) : string :=
  match a with
  | Some s => if decide (s = ""%string) then b else s
  | None => b
  end.

(** [processImage] (lines 17-65), from the id drawn by its executor, the
    file and the outcome of the request. *)
Definition processImage (pid : string) (file : File) (o : AxiosOutcome) : ImageResult :=
  let base64Image := dataURL file in
  match o with
  | Fulfilled data =>
      if success data then
        {| id := pid; image := base64Image;
           prediction := data_prediction data; error := None;
           isLoading := false |}
      else
        {| id := pid; image := base64Image;
           prediction := None;
           error := Some (js_or (data_error data) fallback_message);
           isLoading := false |}
  | Rejected =>
      {| id := pid; image := base64Image;
         prediction := None; error := Some connectivity_message;
         isLoading := false |}
  end.

(** [prev.findIndex(img => img.id === k)]: [None] stands for -1. *)
Definition findIndex (k : string) (prev : list ImageResult) : option nat :=
  fst <$> list_find (λ img, id img = k) prev.

(** The object literal of lines 91-96. *)
Definition patch (old result : ImageResult) : ImageResult :=
  {| id := id old; image := image old;
     prediction := prediction result; error := error result;
     isLoading := false |}.

(** The body of [results.forEach((result, index) => ...)] (lines 88-98).
    [None] is the TypeError of [newImages[index].id] on a missing entry.
    [imageIndex] comes from [prev] and is used in [updatedImages], a copy
    of [prev] whose length never changes. *)
Definition forEach_body (prev newImages : list ImageResult)
    (updatedImages : list ImageResult) (result : ImageResult) (index : nat)
    : option (list ImageResult) :=
  match newImages !! index with
  | None => None
  | Some placeholder =>
      match findIndex (id placeholder) prev with
      | Some imageIndex =>
          Some (alter (λ old, patch old result) imageIndex updatedImages)
      | None => Some updatedImages
      end
  end.

Fixpoint forEach (prev newImages : list ImageResult)
    (results : list ImageResult) (index : nat)
    (updatedImages : list ImageResult) : option (list ImageResult) :=
  match results with
  | [] => Some updatedImages
  | result :: rest =>
      match forEach_body prev newImages updatedImages result index with
      | Some updatedImages' => forEach prev newImages rest (S index) updatedImages'
      | None => None
      end
  end.

(** The second updater of [handleImageUpload] (lines 86-100). *)
Definition reconcile (newImages results prev : list ImageResult)
    : option (list ImageResult) :=
  forEach prev newImages results 0 prev.

(** The updater of [removeImage] (line 104). *)
Definition removeImage (k : string) (prev : list ImageResult) : list ImageResult :=
  filter (λ img, id img ≠ k) prev.

(** [Promise.all]: the results in the order of the promises once every
    one of them has resolved, nothing before. *)
Definition Promise_all (ps : list Pipeline) : option (list ImageResult) :=
  mapM (λ p, match p with Resolved r => Some r | Pending _ _ => None end) ps.

(** The result a promise resolves with, when [outcome i] is how the
    request of pipeline [i] ends. *)
Definition resolve_with (outcome : nat → AxiosOutcome) (i : nat) (p : Pipeline)
    : ImageResult :=
  match p with
  | Pending pid file => processImage pid file (outcome i)
  | Resolved r => r
  end.

(** The promises of a handler of which those in [todo] are still pending. *)
Definition promises_after (outcome : nat → AxiosOutcome) (todo : list nat)
    (pend : list Pipeline) : list Pipeline :=
  imap (λ i p, if decide (i ∈ todo) then p
               else Resolved (resolve_with outcome i p)) pend.

(** What one reconciliation may do to an item: nothing, or the patch. *)
Definition item_step (it it' : ImageResult) : Prop :=
  it' = it ∨ ∃ r, it' = patch it r.

(** A placeholder: still loading, with neither label nor message. *)
Definition is_placeholder (it : ImageResult) : Prop :=
  isLoading it = true ∧ prediction it = None ∧ error it = None.

(** Every handler holds one promise per placeholder. *)
Definition wf (a : App) : Prop :=
  Forall (λ u, length (promises u) = length (newImages u)) (handlers a).

(** ** The request *)

(** What the prediction service does with a request: nothing that
    reaches the client (network failure, unreachable server, timeout),
    or an HTTP answer with a status and a JSON body; [None] is a body
    that is [null]. *)
Inductive Reply :=
  | NoResponse
  | HttpResponse (status : nat) (body : option ResponseData).

(** The way through the [try] block of lines 25-50 up to the test of
    [response.data.success].  [axios.post] is called without a config,
    so it keeps its default [validateStatus]: the promise is fulfilled
    for a status from 200 to 299 and rejected for every other status and
    when no answer arrives.  On a [null] body [response.data.success]
    throws a TypeError inside the [try].  [Rejected] is every way into
    the [catch] block of lines 51-60. *)
Definition request_outcome (r : Reply) : AxiosOutcome :=
  match r with
  | NoResponse => Rejected
  | HttpResponse status body =>
      if decide (200 ≤ status ∧ status < 300) then
        match body with
        | Some data => Fulfilled data
        | None => Rejected
        end
      else Rejected
  end.

(** ** The view *)

(** JavaScript truthiness of a possibly missing string. *)
Definition truthy (s : option string) : bool :=
  match s with
  | Some s => if decide (s = ""%string) then false else true
  | None => false
  end.

(** What a card shows under its picture (lines 168-186). *)
Inductive CardBody :=
  | Analyzing                                     (* the spinner and "Analyzing..." *)
  | ErrorLine (msg : string)                      (* img.error, in red *)
  | ResultLine (label : string) (warning : bool). (* "Result: label", and the note
                                                     "No prediction received from server" *)

(** The last branch of the conditional (lines 176-185). *)
Definition result_line (img : ImageResult) : CardBody :=
  ResultLine (js_or (prediction img) "No prediction") (negb (truthy (prediction img))).

(** [img.isLoading ? ... : img.error ? ... : ...] (lines 168-186). *)
Definition render_body (img : ImageResult) : CardBody :=
  if isLoading img then Analyzing
  else match error img with
       | Some msg => if decide (msg = ""%string) then result_line img else ErrorLine msg
       | None => result_line img
       end.

(** One element of [images.map(...)] (lines 152-189): the React key, which
    is also the id its X button passes to [removeImage], the [src] of the
    picture and the body. *)
Record Card := mkCard {
  key : string;
  src : string;
  body : CardBody
}.

Definition render_card (img : ImageResult) : Card :=
  {| key := id img; src := image img; body := render_body img |}.

(** [images.length === 0 ? ... : ...] (lines 140-200): the upload prompt,
    or the grid of cards with the "Clear All Images" button. *)
Inductive Page :=
  | UploadPrompt
  | Gallery (cards : list Card).

Definition render (images : list ImageResult) : Page :=
  match images with
  | [] => UploadPrompt
  | _ => Gallery (render_card <$> images)
  end.

(** ** Invariants of the store *)

(** An item or a result with at most one of label and message, and whose
    message, when there is one, is not the empty string. *)
Definition well_formed_outcome (it : ImageResult) : Prop :=
  (prediction it = None ∨ error it = None) ∧ error it ≠ Some ""%string.

(** What one reconciliation of the results [rs] may do to an item. *)
Definition item_step_in (rs : list ImageResult) (it it' : ImageResult) : Prop :=
  it' = it ∨ ∃ r, r ∈ rs ∧ it' = patch it r.

(** The placeholders made by all the invocations of [handleImageUpload]. *)
Definition all_placeholders (a : App) : list ImageResult :=
  mjoin (newImages <$> handlers a).

(** ** Sample inputs *)

Definition fileA : File :=
  {| objectURL := "blob:A"; dataURL := "data:image/png;base64,AAAA" |}.
Definition fileB : File :=
  {| objectURL := "blob:B"; dataURL := "data:image/png;base64,BBBB" |}.

(** An oracle whose draws are all different: "a", "b", "c", ... *)
Definition letter_ids (n : nat) : string :=
  String (Ascii.ascii_of_nat (97 + n)) EmptyString.

(** An oracle that draws the same id every time. *)
Definition same_id (n : nat) : string := "k7x2".

Definition says_cat : AxiosOutcome :=
  Fulfilled {| success := true; data_prediction := Some "cat"%string;
               data_error := None |}.
Definition says_blurry : AxiosOutcome :=
  Fulfilled {| success := false; data_prediction := None;
               data_error := Some "blurry image"%string |}.
Definition says_success_without_label : AxiosOutcome :=
  Fulfilled {| success := true; data_prediction := None; data_error := None |}.
Definition says_connection_trouble : ResponseData :=
  {| success := false; data_prediction := None;
     data_error := Some connectivity_message |}.

(** The service reports its own failure with status 500. *)
Definition replies_model_crashed : Reply :=
  HttpResponse 500
    (Some {| success := false; data_prediction := None;
             data_error := Some "model crashed"%string |}).

Section Component.

(** [random_id n]: the n-th value of
    [Math.random().toString(36).substring(7)] in this session. *)
Variable random_id : nat → string.

(** Lines 72-78: one placeholder per file, ids drawn in file order. *)
Definition placeholders (d : nat) (files : list File) : list ImageResult :=
  imap (λ i file,
    {| id := random_id (d + i); image := objectURL file;
       prediction := None; error := None; isLoading := true |}) files.

(** [files.map(processImage)]: each executor draws its own id. *)
Definition start_pipelines (d : nat) (files : list File) : list Pipeline :=
  imap (λ i file, Pending (random_id (d + i)) file) files.

(** [handleImageUpload] up to its [await] (lines 67-83). *)
Definition handleImageUpload (files : list File) (a : App) : App :=
  match files with
  | [] => a
  | _ =>
      let n := length files in
      let newImages := placeholders (draws a) files in
      {| images := images a ++ newImages;
         handlers := handlers a ++
           [ {| newImages := newImages;
                promises := start_pipelines (draws a + n) files |} ];
         draws := draws a + n + n |}
  end.

(** Pipeline [i] of handler [b] completes with outcome [o].  When this
    was the last pending promise of the handler, [Promise.all] resolves
    and the handler resumes: it runs the second updater on the current
    state.  An exception in the updater is [None]. *)
Definition settle (b i : nat) (o : AxiosOutcome) (a : App) : option App :=
  match handlers a !! b with
  | None => Some a
  | Some u =>
      match promises u !! i with
      | Some (Pending pid file) =>
          let u' := {| newImages := newImages u;
                       promises := <[i := Resolved (processImage pid file o)]> (promises u) |} in
          match Promise_all (promises u') with
          | Some results =>
              match reconcile (newImages u') results (images a) with
              | Some updatedImages =>
                  Some {| images := updatedImages;
                          handlers := <[b := u']> (handlers a);
                          draws := draws a |}
              | None => None
              end
          | None =>
              Some {| images := images a;
                      handlers := <[b := u']> (handlers a);
                      draws := draws a |}
          end
      | _ => Some a
      end
  end.

(** One callback of the component: [handleImageUpload] up to its
    [await], the completion of a pipeline, [removeImage] (lines 103-105)
    and the state update of [handleReset] (line 108). *)
Definition step (a : App) (e : Event) : option App :=
  match e with
  | SelectFiles files => Some (handleImageUpload files a)
  | Settle b i o => settle b i o a
  | ClickRemove k =>
      Some {| images := removeImage k (images a);
              handlers := handlers a; draws := draws a |}
  | ClickReset =>
      Some {| images := []; handlers := handlers a; draws := draws a |}
  end.

Fixpoint run (a : App) (evs : list Event) : option App :=
  match evs with
  | [] => Some a
  | e :: evs' =>
      match step a e with
      | Some a' => run a' evs'
      | None => None
      end
  end.

(** [useState<ImageResult[]>([])]. *)
Definition init : App := {| images := []; handlers := []; draws := 0 |}.

Definition reachable (a : App) : Prop := ∃ evs, run init evs = Some a.


(** * Properties *)

(** ** The keyed lookup *)

Lemma findIndex_Some k prev p :
  findIndex k prev = Some p ↔
  ∃ it, prev !! p = Some it ∧ id it = k ∧
        ∀ j z, prev !! j = Some z → j < p → id z ≠ k.
Proof.
  unfold findIndex. split.
  - destruct (list_find _ prev) as [[i x]|] eqn:E; simpl; [|done].
    intros [= ->]. apply list_find_Some in E as (?&?&?). eauto.
  - intros (it & Hit & Hk & Hfirst).
    assert (list_find (λ img, id img = k) prev = Some (p, it)) as ->; [|done].
    apply list_find_Some. eauto.
Qed.

Lemma findIndex_None k prev :
  findIndex k prev = None ↔ k ∉ id <$> prev.
Proof.
  unfold findIndex. rewrite fmap_None, list_find_None, Forall_forall.
  rewrite list_elem_of_fmap. split.
  - intros H (it & Hk & Hin). by apply (H it).
  - intros H it Hin Hk. apply H. by exists it.
Qed.

Lemma findIndex_lt k prev p : findIndex k prev = Some p → p < length prev.
Proof.
  intros (it & Hit & _)%findIndex_Some. by eapply lookup_lt_Some.
Qed.

(** With pairwise distinct ids, the lookup finds the item wherever it is. *)
Lemma findIndex_NoDup prev p it :
  NoDup (id <$> prev) → prev !! p = Some it → findIndex (id it) prev = Some p.
Proof.
  intros Hnd Hp. apply findIndex_Some. exists it. split_and!; [done..|].
  intros j z Hj Hlt Heq.
  assert (j = p); [|lia].
  eapply (NoDup_lookup _ _ _ (id it) Hnd); rewrite list_lookup_fmap.
  - by rewrite Hj, <-Heq.
  - by rewrite Hp.
Qed.

(** ** The patch *)

Lemma patch_patch it r r' : patch (patch it r) r' = patch it r'.
Proof. done. Qed.

Lemma item_step_refl it : item_step it it.
Proof. by left. Qed.

Lemma item_step_trans it1 it2 it3 :
  item_step it1 it2 → item_step it2 it3 → item_step it1 it3.
Proof.
  intros [E12|[r E12]] [E23|[r' E23]]; subst; unfold item_step; eauto.
Qed.

Lemma item_step_id it it' : item_step it it' → id it' = id it.
Proof. by intros [->|[r ->]]. Qed.

Lemma item_step_image it it' : item_step it it' → image it' = image it.
Proof. by intros [->|[r ->]]. Qed.


Lemma Forall2_item_step_refl l : Forall2 item_step l l.
Proof. induction l; constructor; auto using item_step_refl. Qed.

Lemma Forall2_item_step_trans l1 l2 l3 :
  Forall2 item_step l1 l2 → Forall2 item_step l2 l3 → Forall2 item_step l1 l3.
Proof.
  intros H12. revert l3. induction H12; intros l3 H23; inversion H23; subst;
    constructor; eauto using item_step_trans.
Qed.

Lemma Forall2_item_step_alter l p r :
  Forall2 item_step l (alter (λ old, patch old r) p l).
Proof.
  revert p. induction l as [|x l IH]; intros [|p]; simpl; try constructor.
  - right. by exists r.
  - apply Forall2_item_step_refl.
  - apply item_step_refl.
  - apply IH.
Qed.

Lemma Forall2_item_step_ids l l' :
  Forall2 item_step l l' → id <$> l' = id <$> l.
Proof.
  induction 1 as [|x y l l' Hxy _ IH]; [done|].
  rewrite !fmap_cons. f_equal; [by apply item_step_id|done].
Qed.

Lemma Forall2_item_step_images l l' :
  Forall2 item_step l l' → image <$> l' = image <$> l.
Proof.
  induction 1 as [|x y l l' Hxy _ IH]; [done|].
  rewrite !fmap_cons. f_equal; [by apply item_step_image|done].
Qed.

(** ** The reconciliation loop *)

Lemma forEach_body_Some prev nis upd r idx upd' :
  forEach_body prev nis upd r idx = Some upd' →
  ∃ ni, nis !! idx = Some ni ∧
    ((findIndex (id ni) prev = None ∧ upd' = upd) ∨
     (∃ p, findIndex (id ni) prev = Some p ∧
           upd' = alter (λ old, patch old r) p upd)).
Proof.
  unfold forEach_body. destruct (nis !! idx) as [ni|]; [|done].
  intros H. exists ni. split; [done|].
  destruct (findIndex (id ni) prev) as [p|]; injection H as <-; [right|left]; eauto.
Qed.

(** The loop cannot throw when every result has its placeholder. *)
Lemma forEach_is_Some prev nis rs idx upd :
  idx + length rs ≤ length nis → is_Some (forEach prev nis rs idx upd).
Proof.
  revert idx upd. induction rs as [|r rs IH]; intros idx upd Hlen; simpl in *.
  - by eexists.
  - unfold forEach_body.
    destruct (lookup_lt_is_Some_2 nis idx) as [ni ->]; [lia|].
    destruct (findIndex (id ni) prev); apply IH; lia.
Qed.

Lemma forEach_item_step prev nis rs idx upd upd' :
  forEach prev nis rs idx upd = Some upd' → Forall2 item_step upd upd'.
Proof.
  revert idx upd. induction rs as [|r rs IH]; intros idx upd; simpl.
  - intros [= <-]. apply Forall2_item_step_refl.
  - destruct (forEach_body _ _ _ _ _) as [upd1|] eqn:E; [|done].
    intros Hrest%IH.
    apply forEach_body_Some in E as (ni & _ & [[_ ->]|(p & _ & ->)]); [done|].
    eapply Forall2_item_step_trans; [apply Forall2_item_step_alter|done].
Qed.

(** A position that no entry of the batch looks up keeps its item. *)
Lemma forEach_untouched prev nis rs idx upd upd' q :
  forEach prev nis rs idx upd = Some upd' →
  (∀ t ni, t < length rs → nis !! (idx + t) = Some ni →
           findIndex (id ni) prev ≠ Some q) →
  upd' !! q = upd !! q.
Proof.
  revert idx upd. induction rs as [|r rs IH]; intros idx upd; simpl.
  - by intros [= <-].
  - destruct (forEach_body _ _ _ _ _) as [upd1|] eqn:E; [|done].
    intros Hrest Hq.
    rewrite (IH _ _ Hrest).
    + apply forEach_body_Some in E as (ni & Hni & [[_ ->]|(p & Hp & ->)]); [done|].
      apply list_lookup_alter_ne. intros ->.
      apply (Hq 0 ni); [lia|by rewrite Nat.add_0_r|done].
    + intros t ni Ht Hni. apply (Hq (S t) ni); [lia|].
      by replace (idx + S t) with (S idx + t) by lia.
Qed.

(** The last entry of the batch that looks a position up decides it. *)
Lemma forEach_last_wins prev nis rs idx upd upd' q t r ni :
  forEach prev nis rs idx upd = Some upd' →
  rs !! t = Some r → nis !! (idx + t) = Some ni →
  findIndex (id ni) prev = Some q →
  (∀ t' ni', t < t' → t' < length rs → nis !! (idx + t') = Some ni' →
             findIndex (id ni') prev ≠ Some q) →
  upd' !! q = (λ old, patch old r) <$> upd !! q.
Proof.
  revert idx upd t. induction rs as [|r0 rs IH]; intros idx upd t; simpl; [done|].
  destruct (forEach_body _ _ _ _ _) as [upd1|] eqn:E; [|done].
  intros Hrest Hr Hni Hq Hlater. destruct t as [|t]; simpl in *.
  - injection Hr as ->. rewrite Nat.add_0_r in Hni.
    rewrite (forEach_untouched _ _ _ _ _ _ q Hrest).
    + apply forEach_body_Some in E as (ni0 & Hni0 & HE).
      assert (ni0 = ni) as -> by congruence.
      destruct HE as [[? _]|(p & Hp & ->)]; [congruence|].
      assert (p = q) as -> by congruence. apply list_lookup_alter_eq.
    + intros t' ni' Ht' Hni'. apply (Hlater (S t') ni'); [lia..|].
      by replace (idx + S t') with (S idx + t') by lia.
  - rewrite (IH _ _ t Hrest Hr); [| |done|].
    + apply forEach_body_Some in E as (ni0 & _ & [[_ ->]|(p & _ & ->)]); [done|].
      destruct (decide (p = q)) as [->|Hpq].
      * rewrite list_lookup_alter_eq. by destruct (upd !! q).
      * by rewrite list_lookup_alter_ne.
    + by replace (S idx + t) with (idx + S t) by lia.
    + intros t' ni' Ht' Hlen Hni'. apply (Hlater (S t') ni'); [lia..|].
      by replace (idx + S t') with (S idx + t') by lia.
Qed.

Lemma reconcile_is_Some nis rs prev :
  length rs ≤ length nis → is_Some (reconcile nis rs prev).
Proof. intros. apply forEach_is_Some. lia. Qed.

Lemma reconcile_item_step nis rs prev upd :
  reconcile nis rs prev = Some upd → Forall2 item_step prev upd.
Proof. apply forEach_item_step. Qed.

Lemma reconcile_ids nis rs prev upd :
  reconcile nis rs prev = Some upd → id <$> upd = id <$> prev.
Proof. intros H%reconcile_item_step. by apply Forall2_item_step_ids. Qed.

Lemma reconcile_length nis rs prev upd :
  reconcile nis rs prev = Some upd → length upd = length prev.
Proof.
  intros H%reconcile_ids. by rewrite <-(length_fmap id upd), H, length_fmap.
Qed.

(** A position is only ever looked up through the id it carries. *)
Lemma findIndex_id k prev q it :
  findIndex k prev = Some q → prev !! q = Some it → id it = k.
Proof. intros (it' & Hit' & Hk & _)%findIndex_Some ?. congruence. Qed.

Lemma reconcile_other_ids nis rs prev upd q it :
  reconcile nis rs prev = Some upd →
  prev !! q = Some it → id it ∉ id <$> nis → upd !! q = Some it.
Proof.
  intros Hrec Hq Hnotin.
  rewrite (forEach_untouched _ _ _ _ _ _ q Hrec); [done|].
  intros t ni _ Hni Hfind. apply Hnotin.
  rewrite (findIndex_id _ _ _ _ Hfind Hq).
  apply list_elem_of_fmap. exists ni. split; [done|].
  by eapply list_elem_of_lookup_2.
Qed.


Lemma removeImage_ids k prev : k ∉ id <$> removeImage k prev.
Proof.
  unfold removeImage. intros (it & -> & Hin)%list_elem_of_fmap.
  by apply list_elem_of_filter in Hin as [Hne _].
Qed.

Lemma removeImage_absent k prev : k ∉ id <$> prev → removeImage k prev = prev.
Proof.
  unfold removeImage. induction prev as [|x prev IH]; [done|].
  rewrite fmap_cons, not_elem_of_cons. intros [Hne Hrest].
  rewrite filter_cons_True by done. by rewrite IH.
Qed.

Lemma removeImage_length k prev : length (removeImage k prev) ≤ length prev.
Proof. apply length_filter. Qed.


(** ** Claims on the pipeline and on the store operations *)

(** C2 (as amended).  A resolved item never carries both a prediction
    and an error, and [isLoading] is false.  It carries exactly one of
    them, except when the response has the success flag and no label:
    then both stay null, the item is not marked failed and no fallback
    message is set. *)
Theorem C2_exactly_one_unless_success_without_label
    (old : ImageResult) (pid : string) (file : File) (o : AxiosOutcome) :
  let it := patch old (processImage pid file o) in
  isLoading it = false ∧
  (prediction it = None ∨ error it = None) ∧
  ((∃ d, o = Fulfilled d ∧ success d = true ∧ data_prediction d = None) →
     prediction it = None ∧ error it = None) ∧
  (¬ (∃ d, o = Fulfilled d ∧ success d = true ∧ data_prediction d = None) →
     (is_Some (prediction it) ∧ error it = None) ∨
     (prediction it = None ∧ is_Some (error it))).
Proof.
  destruct o as [[[] [label|] msg]|]; simpl.
  - (* success, with a label *)
    split_and!; [done|by right| |by intros _; left; eauto].
    intros (d & Hd & _ & Hlabel). by injection Hd as <-.
  - (* success, without a label *)
    split_and!; [done|by left|done|].
    intros H. exfalso. apply H. by eexists.
  - (* failure reported by the service *)
    split_and!; [done|by left| |by intros _; right; eauto].
    intros (d & Hd & Hs & _). by injection Hd as <-.
  - split_and!; [done|by left| |by intros _; right; eauto].
    intros (d & Hd & Hs & _). by injection Hd as <-.
  - (* the request threw *)
    split_and!; [done|by left| |by intros _; right; eauto].
    by intros (d & Hd & _).
Qed.


(** ** The component as a transition system *)

Lemma Promise_all_length ps rs : Promise_all ps = Some rs → length rs = length ps.
Proof. intros H%mapM_Some. symmetry. by eapply Forall2_length. Qed.

Lemma Promise_all_pending ps j pid file :
ps !! j = Some (Pending pid file) → Promise_all ps = None.
Proof.
intros Hj. apply mapM_None, Exists_exists.
exists (Pending pid file). split; [by eapply list_elem_of_lookup_2|done].
Qed.


Lemma run_app a evs1 evs2 :
  run a (evs1 ++ evs2) =
  match run a evs1 with Some a' => run a' evs2 | None => None end.
Proof.
  revert a. induction evs1 as [|e evs1 IH]; intros a; simpl; [done|].
  destruct (step a e); [apply IH|done].
Qed.

Lemma reachable_init : reachable init.
Proof. by exists []. Qed.

Lemma reachable_step a e a' : reachable a → step a e = Some a' → reachable a'.
Proof.
  intros [evs Hevs] Hstep. exists (evs ++ [e]).
  rewrite run_app, Hevs. simpl. by rewrite Hstep.
Qed.

Lemma reachable_run a evs a' : reachable a → run a evs = Some a' → reachable a'.
Proof.
  intros [evs0 Hevs0] Hrun. exists (evs0 ++ evs). by rewrite run_app, Hevs0.
Qed.

(** An induction principle over the reachable states. *)
Lemma reachable_ind (P : App → Prop) :
  P init →
  (∀ a e a', reachable a → P a → step a e = Some a' → P a') →
  ∀ a, reachable a → P a.
Proof.
  intros Hinit Hstep a [evs Hevs]. revert a Hevs.
  induction evs as [|e evs IH] using rev_ind; intros a Hevs.
  - injection Hevs as <-. exact Hinit.
  - rewrite run_app in Hevs.
    destruct (run init evs) as [a0|] eqn:E0; [|done]. simpl in Hevs.
    destruct (step a0 e) as [a1|] eqn:E1; [|done].
    injection Hevs as <-.
    eapply Hstep; [by exists evs|by apply IH|done].
Qed.

(** What a settlement does, case by case. *)
Lemma settle_Some b i o a a' :
  settle b i o a = Some a' →
  a' = a ∨
  ∃ u pid file ps',
    handlers a !! b = Some u ∧
    promises u !! i = Some (Pending pid file) ∧
    ps' = <[i := Resolved (processImage pid file o)]> (promises u) ∧
    handlers a' = <[b := mkUpload (newImages u) ps']> (handlers a) ∧
    draws a' = draws a ∧
    ((Promise_all ps' = None ∧ images a' = images a) ∨
     (∃ rs, Promise_all ps' = Some rs ∧
            reconcile (newImages u) rs (images a) = Some (images a'))).
Proof.
  unfold settle. destruct (handlers a !! b) as [u|] eqn:Hu; [|intros [= <-]; by left].
  destruct (promises u !! i) as [[pid file|r]|] eqn:Hi; [|intros [= <-]; by left..].
  simpl. intros H. right. exists u, pid, file. eexists. split_and!; [done..| | |].
  - destruct (Promise_all _) as [rs|]; [destruct (reconcile _ _ _)|];
      [|done|]; by injection H as <-.
  - destruct (Promise_all _) as [rs|]; [destruct (reconcile _ _ _)|];
      [|done|]; by injection H as <-.
  - destruct (Promise_all _) as [rs|] eqn:Hall.
    + destruct (reconcile _ _ _) as [upd|] eqn:Hrec; [|done].
      injection H as <-. right. by exists rs.
    + injection H as <-. by left.
Qed.

Lemma settle_item_step b i o a a' :
  settle b i o a = Some a' → Forall2 item_step (images a) (images a').
Proof.
  intros [->|(u & pid & file & ps' & _ & _ & _ & _ & _ & Himg)]%settle_Some.
  - apply Forall2_item_step_refl.
  - destruct Himg as [[_ ->]|(rs & _ & Hrec)].
    + apply Forall2_item_step_refl.
    + by eapply reconcile_item_step.
Qed.

Lemma step_wf a e a' : wf a → step a e = Some a' → wf a'.
Proof.
  unfold wf. intros Hwf. destruct e as [files|b i o|k|]; simpl.
  - intros [= <-]. unfold handleImageUpload. destruct files as [|f files]; [done|].
    simpl. apply Forall_app. split; [done|]. constructor; [|done]. simpl.
    unfold start_pipelines, placeholders. by rewrite !length_imap.
  - intros [->|(u & pid & file & ps' & Hu & _ & -> & -> & _)]%settle_Some; [done|].
    apply Forall_insert; [done|]. simpl.
    rewrite length_insert. by eapply (Forall_lookup_1 _ _ _ _ Hwf).
  - by intros [= <-].
  - by intros [= <-].
Qed.

Lemma reachable_wf a : reachable a → wf a.
Proof.
  apply reachable_ind; [by constructor|]. eauto using step_wf.
Qed.

(** No callback of the component throws. *)
Lemma step_is_Some a e : wf a → is_Some (step a e).
Proof.
  intros Hwf. destruct e as [files|b i o|k|]; simpl; [by eexists| |by eexists..].
  unfold settle. destruct (handlers a !! b) as [u|] eqn:Hu; [|by eexists].
  destruct (promises u !! i) as [[pid file|r]|] eqn:Hi; [|by eexists..].
  simpl. destruct (Promise_all _) as [rs|] eqn:Hall; [|by eexists].
  destruct (reconcile_is_Some (newImages u) rs (images a)) as [upd ->]; [|by eexists].
  apply Promise_all_length in Hall. rewrite length_insert in Hall.
  rewrite Hall. by rewrite (Forall_lookup_1 _ _ _ _ Hwf Hu).
Qed.

Lemma run_is_Some a evs : wf a → is_Some (run a evs).
Proof.
  revert a. induction evs as [|e evs IH]; intros a Hwf; simpl; [by eexists|].
  destruct (step_is_Some a e Hwf) as [a' Ha']. rewrite Ha'.
  apply IH. by eapply step_wf.
Qed.

(** ** Removal while pipelines are in flight *)

Lemma run_settlements_ids a evs :
  wf a → Forall (λ e, ∃ b i o, e = Settle b i o) evs →
  ∃ a', run a evs = Some a' ∧ id <$> images a' = id <$> images a.
Proof.
  intros Hwf Hevs. revert a Hwf.
  induction Hevs as [|e evs (b & i & o & ->) _ IH]; intros a Hwf.
  - by exists a.
  - destruct (step_is_Some a (Settle b i o) Hwf) as [a1 Ha1].
    destruct (IH a1) as (a' & Hrun & Hids); [by eapply step_wf|].
    exists a'. simpl in *. rewrite Ha1. split; [done|].
    rewrite Hids. by apply Forall2_item_step_ids, (settle_item_step b i o).
Qed.

(** C4.  A result whose placeholder id is absent from the store is
    skipped: the iteration returns the store it was given.  For a whole
    batch, the updater returns normally, the ids of the store are the
    same in the same order (nothing is added back), every item whose id
    is not in the batch is untouched, and a batch none of whose ids is in
    the store returns the store itself.  In the component: after the
    removal of id [k], any settlements of the pipelines in flight run to
    their end without bringing an item with id [k] back. *)
Theorem C4_absent_id_is_noop
    (prev nis rs : list ImageResult) (a : App) (k : string) (evs : list Event) :
  length rs ≤ length nis →
  reachable a →
  Forall (λ e, ∃ b i o, e = Settle b i o) evs →
  (∀ updatedImages result index ni,
     nis !! index = Some ni → id ni ∉ id <$> prev →
     forEach_body prev nis updatedImages result index = Some updatedImages) ∧
  (∃ upd, reconcile nis rs prev = Some upd ∧
     id <$> upd = id <$> prev ∧
     (∀ q it, prev !! q = Some it → id it ∉ id <$> nis → upd !! q = Some it) ∧
     ((∀ ni, ni ∈ nis → id ni ∉ id <$> prev) → upd = prev)) ∧
  (∃ a1 a', step a (ClickRemove k) = Some a1 ∧ run a1 evs = Some a' ∧
     id <$> images a' = id <$> removeImage k (images a) ∧
     k ∉ id <$> images a').
Proof.
  intros Hlen Hreach%reachable_wf Hevs. split_and!.
  - intros upd0 r idx ni Hni Habs. unfold forEach_body. rewrite Hni.
    by apply findIndex_None in Habs as ->.
  - destruct (reconcile_is_Some nis rs prev Hlen) as [upd Hupd].
    exists upd. split_and!; [done|by eapply reconcile_ids|..].
    + intros q it. by eapply reconcile_other_ids.
    + intros Habs. apply list_eq. intros q.
      rewrite (forEach_untouched _ _ _ _ _ _ q Hupd); [done|].
      intros t ni _ Hni Hfind.
      assert (findIndex (id ni) prev = None); [|congruence].
      apply findIndex_None, Habs. by eapply list_elem_of_lookup_2.
  - destruct (run_settlements_ids
                {| images := removeImage k (images a); handlers := handlers a;
                   draws := draws a |} evs Hreach Hevs) as (a' & Hrun & Hids).
    eexists _, a'. split_and!; [done..|].
    rewrite Hids. apply removeImage_ids.
Qed.

(** ** Selecting files *)

Lemma placeholders_lookup d files i :
  placeholders d files !! i =
  (λ f, {| id := random_id (d + i); image := objectURL f;
           prediction := None; error := None; isLoading := true |}) <$> files !! i.
Proof. unfold placeholders. apply list_lookup_imap. Qed.

Lemma placeholders_length d files : length (placeholders d files) = length files.
Proof. unfold placeholders. apply length_imap. Qed.

Lemma placeholders_ids d files :
  id <$> placeholders d files = random_id <$> seq d (length files).
Proof.
  apply list_eq. intros i.
  rewrite !list_lookup_fmap, placeholders_lookup.
  destruct (files !! i) as [f|] eqn:Hf; simpl.
  - rewrite lookup_seq_lt; [done|]. by eapply lookup_lt_Some.
  - rewrite lookup_seq_ge; [done|]. by apply lookup_ge_None.
Qed.

Lemma placeholders_is_placeholder d files :
  Forall is_placeholder (placeholders d files).
Proof.
  apply Forall_lookup. intros i it. rewrite placeholders_lookup.
  destruct (files !! i); [|done]. by intros [= <-].
Qed.

Lemma handleImageUpload_images files a :
  images (handleImageUpload files a) = images a ++ placeholders (draws a) files.
Proof.
  unfold handleImageUpload. destruct files; [|done].
  by rewrite app_nil_r.
Qed.

(** C8.  Selecting no file changes nothing.  Selecting N files appends,
    in one update, N placeholders after the items already present, in the
    order of the files; each is loading, carries no label and no message,
    and shows the local reference of its file. *)
Theorem C8_placeholders_appended (a : App) (files : list File) :
  ∃ a', step a (SelectFiles files) = Some a' ∧
    (files = [] → a' = a) ∧
    images a' = images a ++ placeholders (draws a) files ∧
    length (placeholders (draws a) files) = length files ∧
    Forall is_placeholder (placeholders (draws a) files) ∧
    ∀ i, placeholders (draws a) files !! i =
         (λ f, {| id := random_id (draws a + i); image := objectURL f;
                  prediction := None; error := None; isLoading := true |})
           <$> files !! i.
Proof.
  exists (handleImageUpload files a). split_and!.
  - done.
  - by intros ->.
  - apply handleImageUpload_images.
  - apply placeholders_length.
  - apply placeholders_is_placeholder.
  - apply placeholders_lookup.
Qed.

(** ** The pipeline *)

(** C7 (as amended).  The item of a pipeline gets the fixed connectivity
    message whenever the [catch] block is reached: when no answer
    arrives, when the service answers with a status outside 200-299,
    whatever the body and its message, and when the body is null.  Only
    an answer with a status in 200-299 whose body has no success flag
    gets the service's own message, or the fixed fallback when the
    message is missing or empty.  The two kinds of failure show
    different messages only in that case and only when the service's
    message is not the text of the connectivity message.  The failure is
    never thrown: the settlement returns and the pipeline's promise is
    resolved with the failed result. *)
Theorem C7_failure_messages
    (a : App) (b i : nat) (u : Upload) (pid : string) (file : File)
    (old : ImageResult) (reply : Reply) :
  reachable a →
  handlers a !! b = Some u →
  promises u !! i = Some (Pending pid file) →
  (error (patch old (processImage pid file (request_outcome NoResponse)))
     = Some connectivity_message ∧
   (∀ status body, ¬ (200 ≤ status ∧ status < 300) →
      error (patch old (processImage pid file (request_outcome (HttpResponse status body))))
        = Some connectivity_message) ∧
   (∀ status, error (patch old (processImage pid file
                                  (request_outcome (HttpResponse status None))))
                = Some connectivity_message)) ∧
  (request_outcome reply = Rejected →
     prediction (patch old (processImage pid file (request_outcome reply))) = None ∧
     error (patch old (processImage pid file (request_outcome reply)))
       = Some connectivity_message ∧
     isLoading (patch old (processImage pid file (request_outcome reply))) = false) ∧
  (∀ status d, 200 ≤ status ∧ status < 300 → success d = false →
     request_outcome (HttpResponse status (Some d)) = Fulfilled d ∧
     prediction (patch old (processImage pid file (Fulfilled d))) = None ∧
     isLoading (patch old (processImage pid file (Fulfilled d))) = false ∧
     (∀ m, data_error d = Some m → m ≠ ""%string →
        error (patch old (processImage pid file (Fulfilled d))) = Some m) ∧
     (data_error d = None ∨ data_error d = Some ""%string →
        error (patch old (processImage pid file (Fulfilled d))) = Some fallback_message) ∧
     (data_error d ≠ Some connectivity_message →
        error (patch old (processImage pid file (Fulfilled d))) ≠
        error (patch old (processImage pid file Rejected)))) ∧
  (∃ a' u', step a (Settle b i (request_outcome reply)) = Some a' ∧
     handlers a' !! b = Some u' ∧
     promises u' !! i =
       Some (Resolved (processImage pid file (request_outcome reply)))).
Proof.
  intros Hreach%reachable_wf Hu Hi. split_and!.
  - done.
  - intros status body Hst. simpl. by rewrite decide_False.
  - intros status. simpl. by destruct (decide _).
  - by intros ->.
  - intros status [s label msg] Hst Hs. simpl in Hs. subst s.
    split_and!.
    + simpl. by rewrite decide_True.
    + done.
    + done.
    + intros m Hm Hne. simpl in *. subst msg. unfold js_or. by rewrite decide_False.
    + simpl. by intros [->| ->].
    + simpl. intros Hne. unfold js_or. destruct msg as [m|]; [|done].
      destruct (decide (m = ""%string)); [done|]. congruence.
  - simpl. unfold settle. rewrite Hu, Hi. cbv zeta. cbn [promises newImages].
    destruct (Promise_all _) as [rs|] eqn:Hall.
    + destruct (reconcile_is_Some (newImages u) rs (images a)) as [upd ->].
      { apply Promise_all_length in Hall. rewrite length_insert in Hall.
        rewrite Hall. by rewrite (Forall_lookup_1 _ _ _ _ Hreach Hu). }
      eexists _, _. split_and!; [reflexivity|..].
      * cbn [handlers]. apply list_lookup_insert_eq. by eapply lookup_lt_Some.
      * cbn [promises]. apply list_lookup_insert_eq. by eapply lookup_lt_Some.
    + eexists _, _. split_and!; [reflexivity|..].
      * cbn [handlers]. apply list_lookup_insert_eq. by eapply lookup_lt_Some.
      * cbn [promises]. apply list_lookup_insert_eq. by eapply lookup_lt_Some.
Qed.

(** ** Reconciliation and the fields it leaves alone *)

(** C9 (as amended).  A placeholder shows the local reference of its
    file; the encoded form is the [image] of the pipeline's result only;
    no settlement changes the [image] of any item of the store. *)
Theorem C9_image_keeps_local_reference (a : App) :
  (∀ files i f, files !! i = Some f →
     image <$> placeholders (draws a) files !! i = Some (objectURL f)) ∧
  (∀ pid file o, image (processImage pid file o) = dataURL file) ∧
  (∀ b i o a', step a (Settle b i o) = Some a' →
     image <$> images a' = image <$> images a).
Proof.
  split_and!.
  - intros files i f Hf. by rewrite placeholders_lookup, Hf.
  - by intros pid file [[[] ? ?]|].
  - intros b i o a' Hstep. simpl in Hstep.
    by apply Forall2_item_step_images, (settle_item_step b i o).
Qed.

(** C5 (as amended).  Ids are drawn at random and never compared with
    those in use.  The ids of the store stay pairwise distinct through
    every event, provided each selection draws ids that are distinct from
    one another and from those of the items present. *)
Theorem C5_ids_distinct_when_draws_fresh (a : App) (e : Event) (a' : App) :
  NoDup (id <$> images a) →
  step a e = Some a' →
  (∀ files, e = SelectFiles files →
     NoDup ((id <$> images a) ++ (random_id <$> seq (draws a) (length files)))) →
  NoDup (id <$> images a').
Proof.
  intros Hnd Hstep Hfresh. destruct e as [files|b i o|k|]; simpl in Hstep.
  - injection Hstep as <-.
    rewrite handleImageUpload_images, fmap_app, placeholders_ids. by apply Hfresh.
  - apply settle_item_step in Hstep.
    by rewrite (Forall2_item_step_ids _ _ Hstep).
  - injection Hstep as <-. simpl. unfold removeImage.
    apply (sublist_NoDup _ (id <$> images a)); [done|].
    apply fmap_sublist, sublist_filter.
  - injection Hstep as <-. simpl. constructor.
Qed.



(** ** Waiting for the whole batch *)

Lemma settle_sibling b i j o a u pid file :
  wf a →
  handlers a !! b = Some u →
  promises u !! j = Some (Pending pid file) →
  i ≠ j →
  ∃ a' u', step a (Settle b i o) = Some a' ∧ images a' = images a ∧
    handlers a' !! b = Some u' ∧ newImages u' = newImages u ∧
    promises u' !! j = Some (Pending pid file).
Proof.
  intros Hwf Hu Hj Hij.
  destruct (step_is_Some a (Settle b i o) Hwf) as [a' Ha']. simpl in Ha'.
  destruct (settle_Some _ _ _ _ _ Ha')
    as [->|(u0 & pid0 & file0 & ps' & Hu0 & Hi & Hps' & Hh & _ & Himg)].
  - by exists a, u.
  - assert (u0 = u) as -> by congruence.
    assert (ps' !! j = Some (Pending pid file)) as Hj'.
    { subst ps'. by rewrite list_lookup_insert_ne. }
    exists a', (mkUpload (newImages u) ps'). split_and!; [done| |..|done|done].
    + destruct Himg as [[_ ?]|(rs & Hall & _)]; [done|].
      by rewrite (Promise_all_pending _ _ _ _ Hj') in Hall.
    + rewrite Hh. apply list_lookup_insert_eq. by eapply lookup_lt_Some.
Qed.

(** C1 (as amended).  The outcomes of a batch are held back until every
    pipeline of the batch has resolved.  While pipeline [j] of a handler
    is pending, the settlements of its siblings, whatever their number
    and outcomes, leave the store as it was: the resolved siblings are
    still shown as loading.  The settlement of the last pending pipeline
    then applies the results of the whole batch in one update. *)
Theorem C1_store_waits_for_whole_batch
    (a : App) (b j : nat) (u : Upload) (pid : string) (file : File)
    (evs : list Event) :
  reachable a →
  handlers a !! b = Some u →
  promises u !! j = Some (Pending pid file) →
  Forall (λ e, ∃ i o, e = Settle b i o ∧ i ≠ j) evs →
  ∃ a' u', run a evs = Some a' ∧ images a' = images a ∧
    handlers a' !! b = Some u' ∧ newImages u' = newImages u ∧
    promises u' !! j = Some (Pending pid file) ∧
    ∀ o rs,
      Promise_all (<[j := Resolved (processImage pid file o)]> (promises u')) = Some rs →
      ∃ a'', step a' (Settle b j o) = Some a'' ∧
        reconcile (newImages u) rs (images a) = Some (images a'').
Proof.
  intros Hreach%reachable_wf Hu Hj Hevs. revert a u Hreach Hu Hj.
  induction Hevs as [|e evs (i & o & -> & Hij) _ IH]; intros a u Hwf Hu Hj.
  - exists a, u. split_and!; [done..|]. intros o rs Hall.
    destruct (step_is_Some a (Settle b j o) Hwf) as [a'' Ha'']. exists a''.
    split; [done|]. simpl in Ha''. unfold settle in Ha''.
    rewrite Hu, Hj in Ha''. simpl in Ha''. rewrite Hall in Ha''.
    destruct (reconcile _ _ _); [|done]. by injection Ha'' as <-.
  - destruct (settle_sibling b i j o a u pid file Hwf Hu Hj Hij)
      as (a1 & u1 & Hstep & Himg & Hu1 & Hnis & Hj1).
    destruct (IH a1 u1) as (a' & u' & Hrun & Himg' & Hu' & Hnis' & Hj' & Hlast);
      [by eapply step_wf|done..|].
    exists a', u'. simpl in *. rewrite Hstep. split_and!; [done|congruence|done|congruence|done|].
    intros o0 rs Hall. rewrite <-Himg, <-Hnis. by apply Hlast.
Qed.

(** ** Correlation by id *)

(** With distinct ids in the store and in the batch, the result of entry
    [t] lands on the item that carries the id of placeholder [t]. *)
Lemma reconcile_by_id nis rs prev upd t ni r q x :
  NoDup (id <$> prev) → NoDup (id <$> nis) →
  reconcile nis rs prev = Some upd →
  nis !! t = Some ni → rs !! t = Some r →
  prev !! q = Some x → id x = id ni →
  upd !! q = Some (patch x r).
Proof.
  intros Hprev Hnis Hrec Hni Hr Hq Hid.
  rewrite (forEach_last_wins _ _ _ _ _ _ q t r ni Hrec Hr); [by rewrite Hq|done| |].
  - rewrite <-Hid. by apply findIndex_NoDup.
  - intros t' ni' Hlt _ Hni' Hfind. simpl in Hni'.
    assert (t = t'); [|lia].
    eapply (NoDup_lookup _ _ _ (id ni) Hnis); rewrite list_lookup_fmap.
    + by rewrite Hni.
    + rewrite Hni'. simpl. f_equal.
      rewrite <-Hid. symmetry. by eapply findIndex_id.
Qed.

Lemma promises_after_lookup outcome todo pend i :
  promises_after outcome todo pend !! i =
  (λ p, if decide (i ∈ todo) then p else Resolved (resolve_with outcome i p))
    <$> pend !! i.
Proof. unfold promises_after. apply list_lookup_imap. Qed.

Lemma promises_after_all outcome todo pend :
  (∀ i, i < length pend → i ∈ todo) → promises_after outcome todo pend = pend.
Proof.
  intros Hall. apply list_eq. intros i. rewrite promises_after_lookup.
  destruct (pend !! i) as [p|] eqn:Hp; [|done]. simpl.
  rewrite decide_True; [done|]. apply Hall. by eapply lookup_lt_Some.
Qed.

Lemma promises_after_settle outcome i todo pend p :
  i ∉ todo → pend !! i = Some p →
  <[i := Resolved (resolve_with outcome i p)]> (promises_after outcome (i :: todo) pend)
  = promises_after outcome todo pend.
Proof.
  intros Hi Hp. apply list_eq. intros j.
  destruct (decide (i = j)) as [<-|Hij].
  - rewrite list_lookup_insert_eq.
    + rewrite promises_after_lookup, Hp. simpl. by rewrite decide_False.
    + unfold promises_after. rewrite length_imap. by eapply lookup_lt_Some.
  - rewrite list_lookup_insert_ne by done. rewrite !promises_after_lookup.
    destruct (pend !! j) as [pj|]; [|done]. simpl.
    destruct (decide (j ∈ todo)) as [Hin|Hnin].
    + rewrite decide_True; [done|]. by apply list_elem_of_further.
    + rewrite decide_False; [done|]. rewrite not_elem_of_cons. by split; [congruence|].
Qed.

Lemma Promise_all_done outcome pend :
  Promise_all (promises_after outcome [] pend) = Some (imap (resolve_with outcome) pend).
Proof.
  apply mapM_Some, Forall2_same_length_lookup. split.
  - unfold promises_after. by rewrite !length_imap.
  - intros i p r. rewrite promises_after_lookup, list_lookup_imap.
    destruct (pend !! i) as [p0|]; [|done]. simpl.
    destruct (decide (i ∈ [])) as [Hin|_]; [by apply not_elem_of_nil in Hin|].
    by intros [= <-] [= <-].
Qed.

(** Settling the pending pipelines of a handler, each once, in any
    order, ends with one reconciliation of the results in file order. *)
Lemma run_schedule outcome b nis pend todo a :
  Forall (λ p, ∃ pid file, p = Pending pid file) pend →
  length pend = length nis →
  NoDup todo → (∀ i, i ∈ todo → i < length pend) → todo ≠ [] →
  handlers a !! b = Some (mkUpload nis (promises_after outcome todo pend)) →
  ∃ a', run a ((λ i, Settle b i (outcome i)) <$> todo) = Some a' ∧
        reconcile nis (imap (resolve_with outcome) pend) (images a) = Some (images a').
Proof.
  intros Hpend Hlen. revert a.
  induction todo as [|i todo IH]; intros a Hnd Hlt Hne Hh; [done|]. clear Hne.
  apply NoDup_cons in Hnd as [Hi Hnd].
  destruct (lookup_lt_is_Some_2 pend i) as [p Hp]; [apply Hlt, list_elem_of_here|].
  destruct (Forall_lookup_1 _ _ _ _ Hpend Hp) as (pid & file & ->).
  assert (promises_after outcome (i :: todo) pend !! i = Some (Pending pid file)) as Hlook.
  { rewrite promises_after_lookup, Hp. simpl. rewrite decide_True; [done|]. apply list_elem_of_here. }
  pose proof (promises_after_settle outcome i todo pend _ Hi Hp) as Hset.
  simpl in Hset. rewrite fmap_cons. simpl. unfold settle.
  rewrite Hh. simpl. rewrite Hlook, Hset.
  destruct todo as [|j todo].
  - rewrite Promise_all_done.
    destruct (reconcile_is_Some nis (imap (resolve_with outcome) pend) (images a))
      as [upd Hupd]; [by rewrite length_imap, Hlen|].
    rewrite Hupd. simpl. by eexists.
  - destruct (lookup_lt_is_Some_2 pend j) as [pj Hpj];
      [apply Hlt, list_elem_of_further, list_elem_of_here|].
    destruct (Forall_lookup_1 _ _ _ _ Hpend Hpj) as (pidj & filej & ->).
    rewrite (Promise_all_pending _ j pidj filej).
    + match goal with |- ∃ a', run ?a1 _ = _ ∧ _ => apply (IH a1) end; [done| |done|].
      * intros k Hk. by apply Hlt, list_elem_of_further.
      * simpl. apply list_lookup_insert_eq. by eapply lookup_lt_Some.
    + rewrite promises_after_lookup, Hpj. simpl. rewrite decide_True; [done|]. apply list_elem_of_here.
Qed.

(** A batch reconciled against a store that ends with its own
    placeholders, all ids being distinct: the old items are kept and
    placeholder [t] receives result [t]. *)
Lemma reconcile_own_batch prev nis rs :
  NoDup (id <$> prev ++ nis) → length rs = length nis →
  reconcile nis rs (prev ++ nis) = Some (prev ++ zip_with patch nis rs).
Proof.
  intros Hnd Hlen.
  destruct (reconcile_is_Some nis rs (prev ++ nis)) as [upd Hupd]; [lia|].
  rewrite Hupd. f_equal. apply list_eq. intros q.
  pose proof Hnd as Hnd'. rewrite fmap_app in Hnd'.
  apply NoDup_app in Hnd' as (_ & Hdisj & Hnis).
  destruct ((prev ++ nis) !! q) as [x|] eqn:Hq.
  - apply lookup_app_Some in Hq as Hcase. destruct Hcase as [Hold|[Hge Hnew]].
    + rewrite (reconcile_other_ids _ _ _ _ q x Hupd Hq).
      * rewrite lookup_app_l by (by eapply lookup_lt_Some). done.
      * apply Hdisj, list_elem_of_fmap. exists x. split; [done|].
        by eapply list_elem_of_lookup_2.
    + destruct (lookup_lt_is_Some_2 rs (q - length prev)) as [r Hr].
      { rewrite Hlen. by eapply lookup_lt_Some. }
      rewrite (reconcile_by_id nis rs _ upd _ x r q x Hnd Hnis Hupd Hnew Hr Hq eq_refl).
      rewrite lookup_app_r by done. by rewrite lookup_zip_with, Hnew, Hr.
  - apply lookup_ge_None in Hq. rewrite !lookup_ge_None_2; [done|..].
    + rewrite length_app, length_zip_with_l_eq by done.
      by rewrite length_app in Hq.
    + by rewrite (reconcile_length _ _ _ _ Hupd).
Qed.

Lemma handleImageUpload_handler files a :
  files ≠ [] →
  handlers (handleImageUpload files a) !! length (handlers a) =
  Some (mkUpload (placeholders (draws a) files)
          (start_pipelines (draws a + length files) files)).
Proof.
  intros Hne. unfold handleImageUpload. destruct files; [done|].
  cbv zeta. cbn [handlers]. by rewrite list_lookup_middle.
Qed.

Lemma start_pipelines_length d files : length (start_pipelines d files) = length files.
Proof. unfold start_pipelines. apply length_imap. Qed.

Lemma start_pipelines_lookup d files i :
  start_pipelines d files !! i = (λ f, Pending (random_id (d + i)) f) <$> files !! i.
Proof. unfold start_pipelines. by rewrite list_lookup_imap. Qed.




(** * Further properties of the component *)

(** ** Removal *)

Lemma removeImage_cons k x prev :
  removeImage k (x :: prev) =
  if decide (id x ≠ k) then x :: removeImage k prev else removeImage k prev.
Proof. done. Qed.

(** X1.  With pairwise distinct ids, the X button of a card removes that card
    and nothing else: the store loses exactly the position clicked. *)
Theorem removeImage_deletes_clicked_card
    (prev : list ImageResult) (p : nat) (x : ImageResult) :
  NoDup (id <$> prev) → prev !! p = Some x →
  removeImage (key (render_card x)) prev = delete p prev.
Proof.
  simpl. revert p. induction prev as [|y prev IH]; intros p Hnd Hp; [done|].
  rewrite fmap_cons in Hnd. apply NoDup_cons in Hnd as [Hy Hnd].
  rewrite removeImage_cons. destruct p as [|p]; simpl in Hp.
  - injection Hp as ->. rewrite decide_False by (intros ?; done).
    by rewrite removeImage_absent.
  - rewrite decide_True.
    + simpl. f_equal. by apply IH.
    + intros Heq. apply Hy. rewrite Heq.
      apply list_elem_of_fmap. exists x. split; [done|].
      by eapply list_elem_of_lookup_2.
Qed.

(** X2.  Removing an id the store does not carry changes nothing; so a second
    click on the same id does nothing, and two removals give the same
    store in either order. *)
Theorem removeImage_absent_repeated_swapped (k k' : string) (prev : list ImageResult) :
  (k ∉ id <$> prev → removeImage k prev = prev) ∧
  removeImage k (removeImage k prev) = removeImage k prev ∧
  removeImage k (removeImage k' prev) = removeImage k' (removeImage k prev).
Proof.
  split_and!.
  - apply removeImage_absent.
  - apply removeImage_absent, removeImage_ids.
  - unfold removeImage. rewrite !list_filter_filter.
    apply list_filter_iff. intros it. tauto.
Qed.

(** ** Removal and reconciliation commute *)

Lemma findIndex_cons k x prev :
  findIndex k (x :: prev) =
  if decide (id x = k) then Some 0 else S <$> findIndex k prev.
Proof.
  unfold findIndex. simpl. destruct (decide (id x = k)); [done|].
  by destruct (list_find _ prev) as [[]|].
Qed.

Lemma alter_patch_removeImage k k' r prev l :
  id <$> l = id <$> prev →
  removeImage k
    (match findIndex k' prev with
     | Some p => alter (λ old, patch old r) p l
     | None => l
     end) =
  match findIndex k' (removeImage k prev) with
  | Some p => alter (λ old, patch old r) p (removeImage k l)
  | None => removeImage k l
  end.
Proof.
  revert l. induction prev as [|x prev IH]; intros [|y l] Hids; try done.
  rewrite !fmap_cons in Hids. injection Hids as Hxy Hids.
  specialize (IH l Hids).
  rewrite findIndex_cons, (removeImage_cons k x), (removeImage_cons k y), Hxy.
  destruct (decide (id x = k')) as [Hk'|Hk'].
  - change (alter (λ old, patch old r) 0 (y :: l)) with (patch y r :: l).
    rewrite removeImage_cons.
    change (id (patch y r)) with (id y). rewrite Hxy.
    destruct (decide (id x ≠ k)) as [Hk|Hk].
    + by rewrite findIndex_cons, decide_True.
    + assert (findIndex k' (removeImage k prev) = None) as ->; [|done].
      apply findIndex_None. rewrite <-Hk'.
      destruct (decide (id x = k)) as [->|]; [apply removeImage_ids|done].
  - destruct (decide (id x ≠ k)) as [Hk|Hk].
    + rewrite findIndex_cons, decide_False by done.
      destruct (findIndex k' prev) as [p|].
      * change (S <$> Some p) with (Some (S p)). cbv beta iota.
        change (alter (λ old, patch old r) (S p) (y :: l))
          with (y :: alter (λ old, patch old r) p l).
        rewrite removeImage_cons, Hxy, decide_True by done. rewrite IH.
        destruct (findIndex k' (removeImage k prev)); reflexivity.
      * change (S <$> None) with (@None nat). cbv beta iota.
        rewrite removeImage_cons, Hxy, decide_True by done.
        destruct (findIndex k' (removeImage k prev)) as [p'|]; [|reflexivity].
        change (y :: removeImage k l =
                y :: alter (λ old, patch old r) p' (removeImage k l)).
        by f_equal.
    + destruct (findIndex k' prev) as [p|].
      * change (S <$> Some p) with (Some (S p)). cbv beta iota.
        change (alter (λ old, patch old r) (S p) (y :: l))
          with (y :: alter (λ old, patch old r) p l).
        by rewrite removeImage_cons, Hxy, decide_False by done.
      * change (S <$> None) with (@None nat). cbv beta iota.
        by rewrite removeImage_cons, Hxy, decide_False by done.
Qed.

Lemma forEach_body_removeImage k prev nis upd r idx :
  id <$> upd = id <$> prev →
  forEach_body (removeImage k prev) nis (removeImage k upd) r idx =
  removeImage k <$> forEach_body prev nis upd r idx.
Proof.
  intros Hids. unfold forEach_body. destruct (nis !! idx) as [ni|]; [|done].
  pose proof (alter_patch_removeImage k (id ni) r prev upd Hids) as H.
  destruct (findIndex (id ni) prev), (findIndex (id ni) (removeImage k prev));
    simpl; congruence.
Qed.

Lemma forEach_body_ids prev nis upd r idx upd' :
  forEach_body prev nis upd r idx = Some upd' → id <$> upd' = id <$> upd.
Proof.
  intros (ni & _ & [[_ ->]|(p & _ & ->)])%forEach_body_Some; [done|].
  apply Forall2_item_step_ids, Forall2_item_step_alter.
Qed.

Lemma forEach_removeImage k prev nis rs idx upd :
  id <$> upd = id <$> prev →
  forEach (removeImage k prev) nis rs idx (removeImage k upd) =
  removeImage k <$> forEach prev nis rs idx upd.
Proof.
  revert idx upd. induction rs as [|r rs IH]; intros idx upd Hids; simpl; [done|].
  rewrite forEach_body_removeImage by done.
  destruct (forEach_body prev nis upd r idx) as [upd1|] eqn:E; simpl; [|done].
  apply IH. by rewrite (forEach_body_ids _ _ _ _ _ _ E).
Qed.

(** X3.  Removing an item and reconciling a batch give the same store in
    either order, whatever the ids; so a click on X while the batch is in
    flight and the same click after it has landed end in the same state. *)
Theorem remove_commutes_with_reconcile
    (k : string) (nis rs prev : list ImageResult)
    (a : App) (b i : nat) (o : AxiosOutcome) :
  reconcile nis rs (removeImage k prev) = removeImage k <$> reconcile nis rs prev ∧
  run a [ClickRemove k; Settle b i o] = run a [Settle b i o; ClickRemove k].
Proof.
  split.
  - unfold reconcile. by apply forEach_removeImage.
  - simpl. unfold settle. simpl.
    destruct (handlers a !! b) as [u|]; [|done].
    destruct (promises u !! i) as [[pid file|r]|]; [|done..]. simpl.
    destruct (Promise_all _) as [results|]; [|done].
    unfold reconcile. rewrite forEach_removeImage by done.
    by destruct (forEach _ _ _ _ _).
Qed.

(** ** Clear All *)

Lemma step_keeps_empty a e a' :
  images a = [] →
  match e with SelectFiles (_ :: _) => False | _ => True end →
  step a e = Some a' → images a' = [].
Proof.
  intros Hempty He Hstep. destruct e as [[|f files]|b i o|k|]; simpl in Hstep.
  - by injection Hstep as <-.
  - done.
  - apply settle_item_step, Forall2_length in Hstep.
    rewrite Hempty in Hstep. by destruct (images a').
  - injection Hstep as <-. simpl. by rewrite Hempty.
  - by injection Hstep as <-.
Qed.

(** X4.  After "Clear All Images" the store is empty and the page shows the
    upload prompt; the pipelines still in flight settle without bringing
    anything back, and further removals change nothing: the store stays
    empty until files are selected again. *)
Theorem reset_stays_empty (a : App) (evs : list Event) :
  reachable a →
  Forall (λ e, match e with SelectFiles (_ :: _) => False | _ => True end) evs →
  ∃ a1 a', step a ClickReset = Some a1 ∧ run a1 evs = Some a' ∧
    images a' = [] ∧ render (images a') = UploadPrompt.
Proof.
  intros Hwf%reachable_wf Hevs.
  exists {| images := []; handlers := handlers a; draws := draws a |}.
  assert (∀ a1, wf a1 → images a1 = [] → ∃ a', run a1 evs = Some a' ∧ images a' = [])
    as Hrun.
  { induction Hevs as [|e evs He _ IH]; intros a1 Hwf1 Hempty.
    - by exists a1.
    - destruct (step_is_Some a1 e Hwf1) as [a2 Ha2].
      destruct (IH a2) as (a' & Hrun & Hempty');
        [by eapply step_wf|by eapply step_keeps_empty|].
      exists a'. simpl. by rewrite Ha2. }
  destruct (Hrun {| images := []; handlers := handlers a; draws := draws a |})
    as (a' & Ha' & Hempty); [done..|].
  exists a'. split_and!; [done..|]. by rewrite Hempty.
Qed.

(** ** Labels and messages in the store *)

Lemma js_or_nonempty a b : b ≠ ""%string → js_or a b ≠ ""%string.
Proof.
  intros Hb. unfold js_or. destruct a as [s|]; [|done].
  by destruct (decide (s = ""%string)).
Qed.

Lemma processImage_well_formed pid file o :
  well_formed_outcome (processImage pid file o).
Proof.
  destruct o as [[[] label msg]|]; split; simpl; auto; try done.
  intros [= H]. by apply (js_or_nonempty msg fallback_message) in H.
Qed.

Lemma forEach_lookup_in prev nis rs idx upd upd' q it' :
  forEach prev nis rs idx upd = Some upd' → upd' !! q = Some it' →
  ∃ it, upd !! q = Some it ∧ item_step_in rs it it'.
Proof.
  revert idx upd. induction rs as [|r rs IH]; intros idx upd; simpl.
  - intros [= <-] Hq. exists it'. split; [done|by left].
  - destruct (forEach_body _ _ _ _ _) as [upd1|] eqn:E; [|done].
    intros Hrest Hq.
    destruct (IH _ _ Hrest Hq) as (it1 & Hit1 & Hstep).
    assert (item_step_in (r :: rs) it1 it') as Hstep'.
    { destruct Hstep as [->|(r' & Hr' & ->)]; [by left|].
      right. exists r'. split; [by apply list_elem_of_further|done]. }
    apply forEach_body_Some in E as (ni & _ & [[_ ->]|(p & _ & ->)]).
    + by exists it1.
    + destruct (decide (p = q)) as [->|Hpq].
      * rewrite list_lookup_alter_eq in Hit1.
        destruct (upd !! q) as [it|]; [|done]. injection Hit1 as <-.
        exists it. split; [done|]. right.
        destruct Hstep as [->|(r' & Hr' & ->)].
        -- exists r. split; [apply list_elem_of_here|done].
        -- exists r'. split; [by apply list_elem_of_further|done].
      * rewrite list_lookup_alter_ne in Hit1 by done. by exists it1.
Qed.

Lemma Promise_all_Resolved ps rs r :
  Promise_all ps = Some rs → r ∈ rs → Resolved r ∈ ps.
Proof.
  intros Hall%mapM_Some [i Hi]%list_elem_of_lookup.
  destruct (Forall2_lookup_r _ _ _ _ _ Hall Hi) as (p & Hp & Hpr).
  destruct p as [pid file|r']; [done|]. injection Hpr as ->.
  by eapply list_elem_of_lookup_2.
Qed.

(** Items and resolved promises carry well-formed outcomes throughout. *)
Lemma reachable_well_formed a :
  reachable a →
  Forall well_formed_outcome (images a) ∧
  Forall (λ u, ∀ r, Resolved r ∈ promises u → well_formed_outcome r) (handlers a).
Proof.
  revert a. apply reachable_ind; [by split; constructor|].
  intros a e a' _ [Himg Hh] Hstep.
  destruct e as [files|b i o|k|]; simpl in Hstep.
  - injection Hstep as <-. split.
    + rewrite handleImageUpload_images. apply Forall_app. split; [done|].
      eapply Forall_impl; [apply placeholders_is_placeholder|].
      intros it (_ & Hp & He). split; [by left|by rewrite He].
    + unfold handleImageUpload. destruct files as [|f files]; [done|].
      cbv zeta. cbn [handlers]. apply Forall_app. split; [done|].
      constructor; [|done]. cbn [promises]. intros r Hr.
      apply list_elem_of_lookup in Hr as [j Hj].
      rewrite start_pipelines_lookup in Hj. by destruct ((f :: files) !! j).
  - destruct (settle_Some _ _ _ _ _ Hstep)
      as [->|(u & pid & file & ps' & Hu & Hi & Hps' & Hha & _ & Hcase)]; [done|].
    assert (∀ r, Resolved r ∈ ps' → well_formed_outcome r) as Hps.
    { intros r Hr. subst ps'. apply list_elem_of_lookup in Hr as [j Hj].
      apply list_lookup_insert_Some in Hj as [(_ & Heq & _)|[_ Hj]].
      - injection Heq as <-. apply processImage_well_formed.
      - apply (Forall_lookup_1 _ _ _ _ Hh Hu). by eapply list_elem_of_lookup_2. }
    split.
    + destruct Hcase as [[_ ->]|(rs & Hall & Hrec)]; [done|].
      apply Forall_lookup. intros q it' Hq.
      destruct (forEach_lookup_in _ _ _ _ _ _ _ _ Hrec Hq) as (it & Hit & Hs).
      destruct Hs as [->|(r & Hr & ->)].
      * by eapply (Forall_lookup_1 _ _ _ _ Himg).
      * apply (Hps r). by eapply Promise_all_Resolved.
    + rewrite Hha. by apply Forall_insert.
  - injection Hstep as <-. split; [|done]. simpl. apply Forall_forall.
    intros it [_ Hin]%list_elem_of_filter. by apply (proj1 (Forall_forall _ _) Himg).
  - injection Hstep as <-. by split; [constructor|].
Qed.

(** X5.  In every reachable state no item carries both a label and a message,
    a message in the store is never the empty string, and an item that
    carries a label or a message is no longer loading. *)
Theorem store_outcomes_well_formed (a : App) (it : ImageResult) :
  reachable a → it ∈ images a →
  (prediction it = None ∨ error it = None) ∧
  error it ≠ Some ""%string ∧
  (is_Some (prediction it) ∨ is_Some (error it) → isLoading it = false).
Proof.
  intros Hreach Hin.
  destruct (reachable_well_formed a Hreach) as [Himg _].
  destruct (proj1 (Forall_forall _ _) Himg it Hin) as [Hone Hmsg].
  split_and!; [done..|].
  assert (Forall (λ it, isLoading it = true → prediction it = None ∧ error it = None)
            (images a)) as Hload.
  { clear it Hin Hone Hmsg Himg. revert a Hreach.
    apply reachable_ind; [by constructor|].
    intros a e a' _ IH Hstep. destruct e as [files|b i o|k|]; simpl in Hstep.
    - injection Hstep as <-. rewrite handleImageUpload_images.
      apply Forall_app. split; [done|].
      eapply Forall_impl; [apply placeholders_is_placeholder|].
      by intros it (_ & ? & ?) _.
    - apply settle_item_step in Hstep. apply Forall_lookup. intros q it' Hq.
      destruct (Forall2_lookup_r _ _ _ _ _ Hstep Hq) as (it & Hit & [->|[r ->]]);
        [by eapply (Forall_lookup_1 _ _ _ _ IH)|done].
    - injection Hstep as <-. simpl. apply Forall_forall.
      intros it [_ Hin]%list_elem_of_filter. by apply (proj1 (Forall_forall _ _) IH).
    - injection Hstep as <-. constructor. }
  intros Hsome. destruct (isLoading it) eqn:Hl; [|done].
  destruct (proj1 (Forall_forall _ _) Hload it Hin Hl) as [Hp He].
  rewrite Hp, He in Hsome. by destruct Hsome as [[? ?]|[? ?]].
Qed.

(** ** What the cards show *)

(** X6.  In every reachable state a card shows the spinner exactly while its
    item is loading; once settled it shows the item's message, whole,
    whenever the item has one, and the result line otherwise. *)
Theorem card_body_of_reachable_item (a : App) (it : ImageResult) :
  reachable a → it ∈ images a →
  (render_body it = Analyzing ↔ isLoading it = true) ∧
  (isLoading it = false → ∀ msg, error it = Some msg → render_body it = ErrorLine msg) ∧
  (isLoading it = false → error it = None → render_body it = result_line it).
Proof.
  intros Hreach Hin.
  destruct (reachable_well_formed a Hreach) as [Himg _].
  destruct (proj1 (Forall_forall _ _) Himg it Hin) as [_ Hmsg].
  unfold render_body. split_and!.
  - destruct (isLoading it); [done|]. split; [|done].
    destruct (error it) as [msg|]; [|done].
    by destruct (decide (msg = ""%string)).
  - intros -> msg Hmsg'. rewrite Hmsg' in *.
    rewrite decide_False; [done|]. by intros ->.
  - by intros -> ->.
Qed.

(** ** From the outcome of a request to the card *)

(** A batch appended to a store with distinct ids and settled in any
    order ends with the store reconciled item by item. *)
Lemma batch_settled a files outcome order :
  order ≡ₚ seq 0 (length files) →
  NoDup (id <$> images (handleImageUpload files a)) →
  ∃ a2,
    run (handleImageUpload files a)
        ((λ i, Settle (length (handlers a)) i (outcome i)) <$> order) = Some a2 ∧
    images a2 = images a ++
      zip_with patch (placeholders (draws a) files)
        (imap (resolve_with outcome) (start_pipelines (draws a + length files) files)).
Proof.
  intros Horder Hnd. rewrite handleImageUpload_images in Hnd.
  destruct (decide (files = [])) as [->|Hne].
  - apply Permutation_nil_r in Horder as ->. exists a. by rewrite app_nil_r.
  - destruct (run_schedule outcome (length (handlers a))
                (placeholders (draws a) files)
                (start_pipelines (draws a + length files) files) order
                (handleImageUpload files a)) as (a2 & Hrun & Hrec).
    + apply Forall_lookup. intros i p. rewrite start_pipelines_lookup.
      destruct (files !! i); [|done]. intros [= <-]. by eexists _, _.
    + by rewrite start_pipelines_length, placeholders_length.
    + rewrite Horder. apply NoDup_seq.
    + intros i Hi. rewrite Horder in Hi. apply elem_of_seq in Hi.
      rewrite start_pipelines_length. lia.
    + intros ->. apply Permutation_nil_l in Horder.
      destruct files; [done|]. by simpl in Horder.
    + rewrite promises_after_all; [by apply handleImageUpload_handler|].
      intros i Hi. rewrite Horder. apply elem_of_seq.
      rewrite start_pipelines_length in Hi. lia.
    + exists a2. split; [done|].
      rewrite handleImageUpload_images in Hrec.
      rewrite reconcile_own_batch in Hrec; [by injection Hrec as <-|done|].
      by rewrite length_imap, start_pipelines_length, placeholders_length.
Qed.

(** The card of a settled placeholder, read off the outcome of its
    request. *)
Lemma render_card_settled ph pid file o :
  render_card (patch ph (processImage pid file o)) =
  {| key := id ph; src := image ph;
     body := match o with
             | Fulfilled data =>
                 if success data
                 then ResultLine (js_or (data_prediction data) "No prediction")
                                 (negb (truthy (data_prediction data)))
                 else ErrorLine (js_or (data_error data) fallback_message)
             | Rejected => ErrorLine connectivity_message
             end |}.
Proof.
  unfold render_card, render_body. destruct o as [[[] label msg]|]; simpl; [done| |done].
  rewrite decide_False; [done|]. by apply js_or_nonempty.
Qed.

(** X7.  Select files while ids are distinct and let their requests end in
    any order: the cards already on the page are unchanged, and the card
    of file [i] keeps its key and its local picture and shows the label
    of a successful response ("No prediction" and the note when the label
    is missing or empty), the service's message or the fallback for an
    unsuccessful one, and the connectivity message when the request
    threw. *)
Theorem cards_after_batch
    (a : App) (files : list File) (outcome : nat → AxiosOutcome)
    (order : list nat) :
  order ≡ₚ seq 0 (length files) →
  NoDup (id <$> images (handleImageUpload files a)) →
  ∃ a2,
    run (handleImageUpload files a)
        ((λ i, Settle (length (handlers a)) i (outcome i)) <$> order) = Some a2 ∧
    render_card <$> images a2 =
      (render_card <$> images a) ++
      imap (λ i f,
        {| key := random_id (draws a + i); src := objectURL f;
           body := match outcome i with
                   | Fulfilled data =>
                       if success data
                       then ResultLine (js_or (data_prediction data) "No prediction")
                                       (negb (truthy (data_prediction data)))
                       else ErrorLine (js_or (data_error data) fallback_message)
                   | Rejected => ErrorLine connectivity_message
                   end |}) files.
Proof.
  intros Horder Hnd.
  destruct (batch_settled a files outcome order Horder Hnd) as (a2 & Hrun & Himg).
  exists a2. split; [done|]. rewrite Himg, fmap_app. f_equal.
  apply list_eq. intros i.
  rewrite list_lookup_fmap, lookup_zip_with, placeholders_lookup, !list_lookup_imap,
    start_pipelines_lookup.
  destruct (files !! i) as [f|]; [|done]. simpl.
  by rewrite render_card_settled.
Qed.

(** ** One batch and the others *)

(** X8.  The settlement of a pipeline always returns, and it leaves in place
    and unchanged every item whose id is not the id of a placeholder of
    that pipeline's own batch. *)
Theorem settlement_touches_own_batch_only
    (a : App) (b i : nat) (o : AxiosOutcome) (u : Upload) :
  reachable a → handlers a !! b = Some u →
  ∃ a', step a (Settle b i o) = Some a' ∧
    length (images a') = length (images a) ∧
    ∀ q it, images a !! q = Some it → id it ∉ id <$> newImages u →
            images a' !! q = Some it.
Proof.
  intros Hwf%reachable_wf Hu.
  destruct (step_is_Some a (Settle b i o) Hwf) as [a' Ha']. exists a'.
  split; [done|]. simpl in Ha'. split.
  - symmetry. by eapply Forall2_length, settle_item_step.
  - destruct (settle_Some _ _ _ _ _ Ha')
      as [->|(u0 & pid & file & ps' & Hu0 & _ & _ & _ & _ & Hcase)]; [done|].
    assert (u0 = u) as -> by congruence.
    destruct Hcase as [[_ ->]|(rs & _ & Hrec)]; [done|].
    intros q it. by eapply reconcile_other_ids.
Qed.

(** ** Where the items of the store come from *)

Lemma all_placeholders_settle b i o a a' :
  settle b i o a = Some a' → all_placeholders a' = all_placeholders a.
Proof.
  intros [->|(u & pid & file & ps' & Hu & _ & _ & Hh & _)]%settle_Some; [done|].
  unfold all_placeholders. rewrite Hh, list_fmap_insert. f_equal.
  apply list_insert_id. by rewrite list_lookup_fmap, Hu.
Qed.

Lemma all_placeholders_upload files a :
  all_placeholders (handleImageUpload files a) =
  all_placeholders a ++ placeholders (draws a) files.
Proof.
  unfold all_placeholders, handleImageUpload. destruct files as [|f files].
  - by rewrite app_nil_r.
  - cbv zeta. cbn [handlers]. rewrite fmap_app, join_app. simpl.
    by rewrite app_nil_r.
Qed.

(** X9.  Every item of a reachable store carries the id and the image of a
    placeholder made by [handleImageUpload]: the id drawn inside
    [processImage] and the data URI it reads never enter the store. *)
Theorem store_items_come_from_placeholders (a : App) (it : ImageResult) :
  reachable a → it ∈ images a →
  ∃ ph, ph ∈ all_placeholders a ∧ is_placeholder ph ∧
        id it = id ph ∧ image it = image ph.
Proof.
  intros Hreach. revert it. revert a Hreach.
  apply (reachable_ind (λ a, ∀ it, it ∈ images a →
    ∃ ph, ph ∈ all_placeholders a ∧ is_placeholder ph ∧
          id it = id ph ∧ image it = image ph)).
  - intros it Hin. by apply not_elem_of_nil in Hin.
  - intros a e a' _ IH Hstep it Hin.
    destruct e as [files|b i o|k|]; simpl in Hstep.
    + injection Hstep as <-.
      rewrite handleImageUpload_images in Hin. rewrite all_placeholders_upload.
      apply elem_of_app in Hin as [Hold|Hnew].
      * destruct (IH it Hold) as (ph & Hph & Hrest).
        exists ph. split; [|done]. apply elem_of_app. by left.
      * exists it. split_and!; [apply elem_of_app; by right| |done..].
        by apply (proj1 (Forall_forall _ _) (placeholders_is_placeholder (draws a) files)).
    + rewrite (all_placeholders_settle _ _ _ _ _ Hstep).
      apply settle_item_step in Hstep.
      apply list_elem_of_lookup in Hin as [q Hq].
      destruct (Forall2_lookup_r _ _ _ _ _ Hstep Hq) as (it0 & Hit0 & Hs).
      destruct (IH it0) as (ph & Hph & Hpl & Hid & Himg);
        [by eapply list_elem_of_lookup_2|].
      exists ph. split_and!; [done..| |].
      * by rewrite (item_step_id _ _ Hs).
      * by rewrite (item_step_image _ _ Hs).
    + injection Hstep as <-. simpl in Hin.
      apply list_elem_of_filter in Hin as [_ Hin]. by apply IH.
    + injection Hstep as <-. by apply not_elem_of_nil in Hin.
Qed.

(** ** The page right after a selection *)

(** X10.  Selecting at least one file puts the gallery on the page at once:
    the cards that were there, unchanged, followed by one card per file,
    in file order, showing the local picture and the spinner. *)
Theorem cards_after_selection (a : App) (files : list File) :
  files ≠ [] →
  render (images (handleImageUpload files a)) =
  Gallery ((render_card <$> images a) ++
           imap (λ i f, {| key := random_id (draws a + i); src := objectURL f;
                           body := Analyzing |}) files).
Proof.
  intros Hne. rewrite handleImageUpload_images.
  assert (render_card <$> placeholders (draws a) files =
          imap (λ i f, {| key := random_id (draws a + i); src := objectURL f;
                          body := Analyzing |}) files) as Hcards.
  { apply list_eq. intros i.
    rewrite list_lookup_fmap, placeholders_lookup, list_lookup_imap.
    by destruct (files !! i). }
  unfold render. rewrite <-Hcards, <-fmap_app.
  destruct (images a ++ placeholders (draws a) files) eqn:E; [|done].
  apply app_eq_nil in E as [_ E]. apply (f_equal length) in E.
  rewrite placeholders_length in E. by destruct files.
Qed.

(** ** Two placeholders of one batch with the same id *)

(** X11.  When the two placeholders of a batch were given the same id, absent
    from the rest of the store, both results land on the first of them,
    the second result last: the first item ends with the outcome of the
    second file, and the second item is left as it was, still loading. *)
Theorem colliding_ids_in_one_batch
    (prev : list ImageResult) (ph1 ph2 r1 r2 : ImageResult) :
  id ph2 = id ph1 → id ph1 ∉ id <$> prev →
  reconcile [ph1; ph2] [r1; r2] (prev ++ [ph1; ph2]) =
  Some (prev ++ [patch ph1 r2; ph2]).
Proof.
  intros Hid Habs.
  assert (findIndex (id ph1) (prev ++ [ph1; ph2]) = Some (length prev)) as Hfind.
  { apply findIndex_Some. exists ph1. split_and!.
    - by rewrite list_lookup_middle.
    - done.
    - intros j z Hj Hlt Hz. apply Habs. rewrite <-Hz.
      apply list_elem_of_fmap. exists z. split; [done|].
      rewrite lookup_app_l in Hj by done. by eapply list_elem_of_lookup_2. }
  unfold reconcile. simpl. unfold forEach_body. simpl.
  rewrite Hid, Hfind. f_equal.
  rewrite !alter_app_r_alt by lia. rewrite Nat.sub_diag. done.
Qed.

End Component.

(** * The claims at concrete inputs *)

Example scenario_cat_and_blurry :
  images <$> run letter_ids init
    [SelectFiles [fileA; fileB]; Settle 0 1 says_blurry; Settle 0 0 says_cat] =
  Some [ {| id := "a"; image := "blob:A"; prediction := Some "cat"%string;
            error := None; isLoading := false |};
         {| id := "b"; image := "blob:B"; prediction := None;
            error := Some "blurry image"%string; isLoading := false |} ].
Proof. reflexivity. Qed.

Example scenario_clear_all :
  images <$> run letter_ids init
    [SelectFiles [fileA; fileB; fileA]; Settle 0 0 says_cat; Settle 0 1 says_cat;
     Settle 0 2 Rejected; ClickReset] = Some [].
Proof. reflexivity. Qed.

(** C1, as stated, fails: with two files selected, the first pipeline
    resolves while the second is pending, and the first item is still
    loading afterwards. *)
Lemma C1_counterexample :
  ¬ (∀ random_id a b i o a' u pid file ni,
       reachable random_id a →
       handlers a !! b = Some u →
       promises u !! i = Some (Pending pid file) →
       newImages u !! i = Some ni →
       step random_id a (Settle b i o) = Some a' →
       ∀ it, it ∈ images a' → id it = id ni → isLoading it = false).
Proof.
  intros H.
  pose (a := handleImageUpload letter_ids [fileA; fileB] init).
  assert (reachable letter_ids a) as Hreach by (by exists [SelectFiles [fileA; fileB]]).
  pose (ni := {| id := "a"; image := "blob:A"; prediction := None;
                 error := None; isLoading := true |}).
  specialize (H letter_ids a 0 0 says_cat _ _ _ _ ni Hreach eq_refl eq_refl eq_refl eq_refl
                ni (list_elem_of_here _ _) eq_refl).
  discriminate H.
Qed.

Lemma C1_witness :
  let a := handleImageUpload letter_ids [fileA; fileB] init in
  reachable letter_ids a ∧
  ∃ a', run letter_ids a [Settle 0 0 says_cat] = Some a' ∧ images a' = images a.
Proof.
  intros a.
  assert (reachable letter_ids a) as Hreach by (by exists [SelectFiles [fileA; fileB]]).
  split; [exact Hreach|].
  destruct (C1_store_waits_for_whole_batch letter_ids a 0 1
              {| newImages := placeholders letter_ids 0 [fileA; fileB];
                 promises := start_pipelines letter_ids 2 [fileA; fileB] |}
              "d" fileB [Settle 0 0 says_cat] Hreach eq_refl eq_refl)
    as (a' & u' & Hrun & Himg & _).
  - constructor; [|constructor]. exists 0, says_cat. split; [reflexivity|lia].
  - exists a'. split; assumption.
Defined.

(** C2, as stated, fails: a response with the success flag and no label
    leaves both [prediction] and [error] null. *)
Lemma C2_counterexample :
  ¬ (∀ old pid file o,
       let it := patch old (processImage pid file o) in
       (is_Some (prediction it) ∧ error it = None) ∨
       (prediction it = None ∧ is_Some (error it))).
Proof.
  intros H.
  destruct (H (mkImageResult "a" "blob:A" None None true) "c"%string fileA
              says_success_without_label) as [[[x Hx] _]|[_ [x Hx]]];
    discriminate Hx.
Qed.



Lemma C4_witness :
  let store := [mkImageResult "a" "blob:A" None None true] in
  let removed := [mkImageResult "z" "blob:Z" None None true] in
  let results := [processImage "q" fileB says_cat] in
  let a := handleImageUpload letter_ids [fileA; fileB] init in
  length results ≤ length removed ∧
  reachable letter_ids a ∧
  (∃ upd, reconcile removed results store = Some upd ∧ id <$> upd = id <$> store) ∧
  (∃ a1 a', step letter_ids a (ClickRemove "a") = Some a1 ∧
     run letter_ids a1 [Settle 0 0 says_cat; Settle 0 1 says_blurry] = Some a' ∧
     "a"%string ∉ id <$> images a').
Proof.
  intros store removed results a.
  assert (length results ≤ length removed) as Hlen by (simpl; lia).
  assert (reachable letter_ids a) as Hreach by (by exists [SelectFiles [fileA; fileB]]).
  assert (Forall (λ e, ∃ b i o, e = Settle b i o)
            [Settle 0 0 says_cat; Settle 0 1 says_blurry]) as Hevs
    by (repeat constructor; by eexists _, _, _).
  destruct (C4_absent_id_is_noop letter_ids store removed results a "a"
              [Settle 0 0 says_cat; Settle 0 1 says_blurry] Hlen Hreach Hevs)
    as (_ & (upd & Hrec & Hids & _) & (a1 & a' & Hstep & Hrun & _ & Hgone)).
  split_and!; [exact Hlen|exact Hreach|by exists upd|by exists a1, a'].
Defined.

(** C5, as stated, fails: when the oracle repeats a draw, two live items
    share an id. *)
Lemma C5_counterexample :
  ¬ (∀ random_id a, reachable random_id a → NoDup (id <$> images a)).
Proof.
  intros H.
  assert (reachable same_id (handleImageUpload same_id [fileA; fileB] init)) as Hreach
    by (by exists [SelectFiles [fileA; fileB]]).
  apply H in Hreach. simpl in Hreach.
  apply NoDup_cons in Hreach as [Hnotin _]. apply Hnotin, list_elem_of_here.
Qed.

Lemma C5_witness :
  NoDup (id <$> images init) ∧
  NoDup (id <$> images (handleImageUpload letter_ids [fileA; fileB] init)).
Proof.
  assert (NoDup (id <$> images init)) as Hnd by constructor.
  split; [exact Hnd|].
  apply (C5_ids_distinct_when_draws_fresh letter_ids init
           (SelectFiles [fileA; fileB]) _ Hnd eq_refl).
  intros files Hfiles. injection Hfiles as <-.
  apply (bool_decide_unpack _). vm_compute. exact I.
Defined.



(** C7, as stated, fails: a service that reports its failure with
    status 500 and its own message gets the connectivity message, the
    same as a request that was never answered. *)
Lemma C7_counterexample :
  ¬ (∀ pid file status d m,
       success d = false → data_error d = Some m → m ≠ ""%string →
       error (processImage pid file (request_outcome (HttpResponse status (Some d))))
         = Some m ∧
       error (processImage pid file (request_outcome (HttpResponse status (Some d)))) ≠
       error (processImage pid file (request_outcome NoResponse))).
Proof.
  intros H.
  destruct (H "c"%string fileA 500
              {| success := false; data_prediction := None;
                 data_error := Some "model crashed"%string |}
              "model crashed"%string eq_refl eq_refl) as [Hmsg _]; [done|].
  discriminate Hmsg.
Qed.

(** Even with status 200 the two failures can look the same: the service
    may send the text of the connectivity message. *)
Example same_text_from_the_service :
  error (processImage "c" fileA
           (request_outcome (HttpResponse 200 (Some says_connection_trouble)))) =
  error (processImage "c" fileA (request_outcome NoResponse)).
Proof. reflexivity. Qed.

Lemma C7_witness :
  let a := handleImageUpload letter_ids [fileA] init in
  let u := {| newImages := placeholders letter_ids 0 [fileA];
              promises := start_pipelines letter_ids 1 [fileA] |} in
  reachable letter_ids a ∧
  handlers a !! 0 = Some u ∧
  promises u !! 0 = Some (Pending "b" fileA) ∧
  ∃ a' u', step letter_ids a (Settle 0 0 (request_outcome replies_model_crashed)) = Some a' ∧
    handlers a' !! 0 = Some u' ∧
    promises u' !! 0 =
      Some (Resolved {| id := "b"; image := dataURL fileA; prediction := None;
                        error := Some connectivity_message; isLoading := false |}).
Proof.
  intros a u.
  assert (reachable letter_ids a) as Hreach by (by exists [SelectFiles [fileA]]).
  split; [exact Hreach|]. split; [reflexivity|]. split; [reflexivity|].
  apply (C7_failure_messages letter_ids a 0 0 u "b" fileA
           (mkImageResult "a" "blob:A" None None true) replies_model_crashed
           Hreach eq_refl eq_refl).
Defined.

(** C9, as stated, fails: once the only pipeline has resolved, the item
    still shows the local reference, not the data URI. *)
Lemma C9_counterexample :
  ¬ (∀ random_id file o a',
       run random_id init [SelectFiles [file]; Settle 0 0 o] = Some a' →
       ∀ it, it ∈ images a' → image it = dataURL file).
Proof.
  intros H.
  specialize (H letter_ids fileA says_cat _ eq_refl _ (list_elem_of_here _ _)).
  discriminate H.
Qed.


(** * The further properties at concrete inputs *)

Example scenario_remove_in_flight :
  images <$> run letter_ids init
    [SelectFiles [fileA; fileB]; Settle 0 1 says_blurry; ClickRemove "a";
     Settle 0 0 says_cat] =
  Some [ {| id := "b"; image := "blob:B"; prediction := None;
            error := Some "blurry image"%string; isLoading := false |} ].
Proof. reflexivity. Qed.

Lemma removeImage_deletes_clicked_card_witness :
  let x := mkImageResult "a" "blob:A" (Some "cat"%string) None false in
  let y := mkImageResult "b" "blob:B" None None true in
  NoDup (id <$> [x; y]) ∧ [x; y] !! 1 = Some y ∧
  removeImage (key (render_card y)) [x; y] = delete 1 [x; y].
Proof.
  intros x y.
  assert (NoDup (id <$> [x; y])) as Hnd
    by (apply (bool_decide_unpack _); vm_compute; exact I).
  split_and!; [exact Hnd|reflexivity|].
  apply (removeImage_deletes_clicked_card [x; y] 1 y Hnd eq_refl).
Defined.

Lemma reset_stays_empty_witness :
  let a := handleImageUpload letter_ids [fileA; fileB] init in
  let evs := [Settle 0 0 says_cat; ClickRemove "a"; Settle 0 1 Rejected] in
  reachable letter_ids a ∧
  ∃ a1 a', step letter_ids a ClickReset = Some a1 ∧
    run letter_ids a1 evs = Some a' ∧ images a' = [] ∧
    render (images a') = UploadPrompt.
Proof.
  intros a evs.
  assert (reachable letter_ids a) as Hreach by (by exists [SelectFiles [fileA; fileB]]).
  split; [exact Hreach|].
  apply (reset_stays_empty letter_ids a evs Hreach).
  repeat constructor.
Defined.

Lemma store_outcomes_well_formed_witness :
  let a := handleImageUpload letter_ids [fileA] init in
  let it := mkImageResult "a" "blob:A" None None true in
  reachable letter_ids a ∧ it ∈ images a ∧
  (prediction it = None ∨ error it = None) ∧
  error it ≠ Some ""%string ∧
  (is_Some (prediction it) ∨ is_Some (error it) → isLoading it = false).
Proof.
  intros a it.
  assert (reachable letter_ids a) as Hreach by (by exists [SelectFiles [fileA]]).
  assert (it ∈ images a) as Hin by apply list_elem_of_here.
  split; [exact Hreach|]. split; [exact Hin|].
  apply (store_outcomes_well_formed letter_ids a it Hreach Hin).
Defined.

Lemma card_body_of_reachable_item_witness :
  let a := handleImageUpload letter_ids [fileA] init in
  let it := mkImageResult "a" "blob:A" None None true in
  reachable letter_ids a ∧ it ∈ images a ∧
  (render_body it = Analyzing ↔ isLoading it = true).
Proof.
  intros a it.
  assert (reachable letter_ids a) as Hreach by (by exists [SelectFiles [fileA]]).
  assert (it ∈ images a) as Hin by apply list_elem_of_here.
  split; [exact Hreach|]. split; [exact Hin|].
  apply (card_body_of_reachable_item letter_ids a it Hreach Hin).
Defined.

Lemma cards_after_batch_witness :
  let outcome := λ i : nat, match i with 0 => says_success_without_label | _ => Rejected end in
  [1; 0] ≡ₚ seq 0 2 ∧
  NoDup (id <$> images (handleImageUpload letter_ids [fileA; fileB] init)) ∧
  ∃ a2, run letter_ids (handleImageUpload letter_ids [fileA; fileB] init)
          [Settle 0 1 (outcome 1); Settle 0 0 (outcome 0)] = Some a2 ∧
        render_card <$> images a2 =
          [ {| key := "a"; src := "blob:A";
               body := ResultLine "No prediction" true |};
            {| key := "b"; src := "blob:B";
               body := ErrorLine connectivity_message |} ].
Proof.
  intros outcome.
  assert ([1; 0] ≡ₚ seq 0 2) as Hperm by apply Permutation_swap.
  assert (NoDup (id <$> images (handleImageUpload letter_ids [fileA; fileB] init)))
    as Hnd by (apply (bool_decide_unpack _); vm_compute; exact I).
  split; [exact Hperm|]. split; [exact Hnd|].
  apply (cards_after_batch letter_ids init [fileA; fileB] outcome [1; 0] Hperm Hnd).
Defined.

Lemma settlement_touches_own_batch_only_witness :
  let a := handleImageUpload letter_ids [fileB]
             (handleImageUpload letter_ids [fileA] init) in
  reachable letter_ids a ∧
  ∃ a', step letter_ids a (Settle 1 0 says_cat) = Some a' ∧
        length (images a') = length (images a) ∧
        images a' !! 0 = images a !! 0.
Proof.
  intros a.
  assert (reachable letter_ids a) as Hreach
    by (by exists [SelectFiles [fileA]; SelectFiles [fileB]]).
  split; [exact Hreach|].
  destruct (settlement_touches_own_batch_only letter_ids a 1 0 says_cat
              {| newImages := placeholders letter_ids 2 [fileB];
                 promises := start_pipelines letter_ids 3 [fileB] |}
              Hreach eq_refl) as (a' & Hstep & Hlen & Hother).
  exists a'. split; [exact Hstep|]. split; [exact Hlen|].
  apply (Hother 0 (mkImageResult "a" "blob:A" None None true) eq_refl).
  vm_compute. intros H. inversion H as [|? ? ? H']; subst. inversion H'.
Defined.

Lemma store_items_come_from_placeholders_witness :
  let a := handleImageUpload letter_ids [fileA] init in
  let it := mkImageResult "a" "blob:A" None None true in
  reachable letter_ids a ∧ it ∈ images a ∧
  ∃ ph, ph ∈ all_placeholders a ∧ is_placeholder ph ∧
        id it = id ph ∧ image it = image ph.
Proof.
  intros a it.
  assert (reachable letter_ids a) as Hreach by (by exists [SelectFiles [fileA]]).
  assert (it ∈ images a) as Hin by apply list_elem_of_here.
  split; [exact Hreach|]. split; [exact Hin|].
  apply (store_items_come_from_placeholders letter_ids a it Hreach Hin).
Defined.

Lemma cards_after_selection_witness :
  [fileA] ≠ [] ∧
  render (images (handleImageUpload letter_ids [fileA] init)) =
  Gallery [ {| key := "a"; src := "blob:A"; body := Analyzing |} ].
Proof.
  assert ([fileA] ≠ []) as Hne by discriminate.
  split; [exact Hne|].
  apply (cards_after_selection letter_ids init [fileA] Hne).
Defined.

Lemma colliding_ids_in_one_batch_witness :
  let ph1 := mkImageResult "k7x2" "blob:A" None None true in
  let ph2 := mkImageResult "k7x2" "blob:B" None None true in
  let r1 := processImage "c" fileA says_cat in
  let r2 := processImage "d" fileB says_blurry in
  id ph2 = id ph1 ∧ (id ph1 ∉ id <$> []) ∧
  reconcile [ph1; ph2] [r1; r2] ([] ++ [ph1; ph2]) =
  Some ([] ++ [patch ph1 r2; ph2]).
Proof.
  intros ph1 ph2 r1 r2.
  assert (id ph1 ∉ id <$> []) as Habs by apply not_elem_of_nil.
  split; [reflexivity|]. split; [exact Habs|].
  apply (colliding_ids_in_one_batch [] ph1 ph2 r1 r2 eq_refl Habs).
Defined.
